(** * Verification of the lock-free 256-byte FIFO (util/no_os_lf256fifo.c)

    The C functions of [no_os_lf256fifo.c] are embedded as pure functions
    over an explicit queue record.  Indices are [uint8_t] in the source;
    here they are integers in [0, 256) and every conversion back to
    [uint8_t] is written out with [to_uint8].  The backing storage is a
    list of 256 bytes addressed with stdpp's list lookup and insert. *)

From Stdlib Require Import ZArith Lia.
From stdpp Require Import base numbers list.

Local Open Scope Z_scope.

(** ** C integer conversions *)

(** Storing an [int] value into a [uint8_t] object reduces it modulo 2^8. *)
Definition to_uint8 (z : Z) : Z := z mod 2 ^ 8.

(** Values of [errno.h] used by the source. *)
Definition EINVAL : Z := 22.
Definition ENOMEM : Z := 12.

(** ** Allocator

    [calloc] either hands out a zero-filled block or returns [NULL].  The
    outcome of each upcoming request is read from [oracle] ([true]: the
    request is served); [live] records the sizes of blocks handed out and
    not yet freed. *)
Record heap : Type := Heap {
  oracle : list bool;
  live : list nat;
}.

Definition calloc (h : heap) (nmemb size : nat) : option (list Z) * heap :=
  match oracle h with
  | true :: o =>
      (Some (replicate (nmemb * size) 0),
       {| oracle := o; live := (nmemb * size)%nat :: live h |})
  | false :: o => (None, {| oracle := o; live := live h |})
  | [] => (None, h)
  end.

Fixpoint remove_first (sz : nat) (l : list nat) : list nat :=
  match l with
  | [] => []
  | x :: l' => if Nat.eqb x sz then l' else x :: remove_first sz l'
  end.

Definition free (h : heap) (sz : nat) : heap :=
  {| oracle := oracle h; live := remove_first sz (live h) |}.

Definition calloc_fails (h : heap) (nmemb size : nat) : bool :=
  match calloc h nmemb size with
  | (None, _) => true
  | (Some _, _) => false
  end.

(** ** The queue *)

(** [struct lf256fifo]: [data] is the buffer the pointer field refers to,
    [ffilled] the first filled slot (consumer index, "head"), [fempty] the
    first empty slot (producer index, "tail").  Stored bytes are kept as
    the integers the caller passed; no result below depends on their
    range. *)
Record lf256fifo : Type := Fifo {
  data : list Z;
  ffilled : Z;
  fempty : Z;
}.

(** Representation invariant given by the C types: a 256-byte buffer and
    two [uint8_t] indices. *)
Definition wf (q : lf256fifo) : Prop :=
  length (data q) = 256%nat ∧ 0 ≤ ffilled q < 256 ∧ 0 ≤ fempty q < 256.

(** [fifo->data[i]] for a [uint8_t] index [i]. *)
Definition load (d : list Z) (i : Z) : Z := default 0 (d !! Z.to_nat i).

(** [fifo->data[i] = c]. *)
Definition store (d : list Z) (i : Z) (c : Z) : list Z := <[Z.to_nat i := c]> d.

Section Init.
(** [sizeof(struct lf256fifo)] depends on the target ABI. *)
Variable sizeof_lf256fifo : nat.

(** [lf256fifo_init(struct lf256fifo **fifo)].  The argument is [None]
    for a [NULL] pointer and [Some old] for a pointer to a location that
    currently holds [old].  The result is the return value, the content
    of that location afterwards, and the heap afterwards. *)
Definition lf256fifo_init (fifo : option (option lf256fifo)) (h : heap)
  : Z * option (option lf256fifo) * heap :=
  match fifo with
  | None => (- EINVAL, None, h)
  | Some old =>
      match calloc h 1 sizeof_lf256fifo with
      | (None, h1) => (- ENOMEM, Some old, h1)
      | (Some _, h1) =>
          (* the zero-filled control block has ffilled = fempty = 0 *)
          match calloc h1 1 256 with
          | (None, h2) => (- ENOMEM, Some old, free h2 (1 * sizeof_lf256fifo))
          | (Some buf, h2) =>
              (0, Some (Some {| data := buf; ffilled := 0; fempty := 0 |}), h2)
          end
      end
  end.
End Init.

(** [lf256fifo_is_full]: both operands of [==] have type [int] after the
    integer promotions, so [fempty + 1] is computed in [int] and can be 256. *)
Definition lf256fifo_is_full (fifo : lf256fifo) : bool :=
  (fempty fifo + 1) =? ffilled fifo.

Definition lf256fifo_is_empty (fifo : lf256fifo) : bool :=
  fempty fifo =? ffilled fifo.

(** [lf256fifo_read(fifo, c)]: the second argument is the current content
    of the location [c] points to; the result is the return value, the
    queue afterwards and the content of [*c] afterwards. *)
Definition lf256fifo_read (fifo : lf256fifo) (c : Z) : Z * lf256fifo * Z :=
  if lf256fifo_is_empty fifo then (-1, fifo, c)
  else
    let c' := load (data fifo) (ffilled fifo) in
    (0,
     {| data := data fifo;
        ffilled := to_uint8 (ffilled fifo + 1);
        fempty := fempty fifo |},
     c').

Definition lf256fifo_write (fifo : lf256fifo) (c : Z) : Z * lf256fifo :=
  if lf256fifo_is_full fifo then (-1, fifo)
  else
    (0,
     {| data := store (data fifo) (fempty fifo) c;
        ffilled := ffilled fifo;
        fempty := to_uint8 (fempty fifo + 1) |}).

Definition lf256fifo_flush (fifo : lf256fifo) : lf256fifo :=
  {| data := data fifo; ffilled := fempty fifo; fempty := fempty fifo |}.

(** ** Call sequences *)

(** The queue a successful [lf256fifo_init] hands out. *)
Definition fresh : lf256fifo :=
  {| data := replicate 256 0; ffilled := 0; fempty := 0 |}.

(** Consecutive [lf256fifo_write] calls, one per byte, collecting the
    return values. *)
Fixpoint write_all (q : lf256fifo) (bs : list Z) : list Z * lf256fifo :=
  match bs with
  | [] => ([], q)
  | b :: bs' =>
      let '(r, q1) := lf256fifo_write q b in
      let '(rs, q2) := write_all q1 bs' in
      (r :: rs, q2)
  end.

(** [n] consecutive [lf256fifo_read] calls into the same location,
    collecting each return value with the content of the location after
    the call. *)
Fixpoint read_many (q : lf256fifo) (n : nat) (c : Z)
  : list (Z * Z) * lf256fifo :=
  match n with
  | O => ([], q)
  | S n' =>
      let '(r, q1, c1) := lf256fifo_read q c in
      let '(rs, q2) := read_many q1 n' c1 in
      ((r, c1) :: rs, q2)
  end.

(** States a client can reach from a fresh queue through the API.  Bytes
    passed to [lf256fifo_write] are [uint8_t] values. *)
Inductive reachable : lf256fifo → Prop :=
  | reach_fresh : reachable fresh
  | reach_write q c :
      reachable q → 0 ≤ c < 256 → reachable (lf256fifo_write q c).2
  | reach_read q c : reachable q → reachable (lf256fifo_read q c).1.2
  | reach_flush q : reachable q → reachable (lf256fifo_flush q).

(** Number of bytes written and not yet read, as the indices give it. *)
Definition pending_count (q : lf256fifo) : Z :=
  (fempty q - ffilled q) mod 256.

(** The [n] bytes stored from slot [h] on, in slot order with wraparound. *)
Fixpoint slots_from (d : list Z) (h : Z) (n : nat) : list Z :=
  match n with
  | O => []
  | S n' => load d h :: slots_from d (to_uint8 (h + 1)) n'
  end.

(** The bytes a consumer has still to read, oldest first. *)
Definition pending (q : lf256fifo) : list Z :=
  slots_from (data q) (ffilled q) (Z.to_nat (pending_count q)).

(** The ordering property for queues whose starting state satisfies [P]:
    [k <= 255] bytes accepted by consecutive writes are returned, in the
    order written, by the [k] reads that follow. *)
Definition fifo_order_from (P : lf256fifo → Prop) : Prop :=
  ∀ (q : lf256fifo) (bs : list Z) (c : Z),
    P q →
    (length bs ≤ 255)%nat →
    Forall (λ b, 0 ≤ b < 256) bs →
    Forall (λ r, r = 0) (write_all q bs).1 →
    (read_many (write_all q bs).2 (length bs) c).1 = map (λ b, (0, b)) bs.

(** ** Arbitrary call sequences *)

(** One call a client makes on the queue. *)
Inductive op : Type :=
  | OpWrite (b : Z)
  | OpRead
  | OpFlush.

(** A sequence of calls run in order on one queue, all reads going to the
    same output location.  Each write and each read contributes its return
    value with the content of the output location after the call;
    [lf256fifo_flush] returns nothing. *)
Fixpoint run_ops (q : lf256fifo) (ops : list op) (c : Z)
  : list (Z * Z) * lf256fifo :=
  match ops with
  | [] => ([], q)
  | OpWrite b :: ops' =>
      let '(r, q1) := lf256fifo_write q b in
      let '(rs, q2) := run_ops q1 ops' c in
      ((r, c) :: rs, q2)
  | OpRead :: ops' =>
      let '(r, q1, c1) := lf256fifo_read q c in
      let '(rs, q2) := run_ops q1 ops' c1 in
      ((r, c1) :: rs, q2)
  | OpFlush :: ops' => run_ops (lf256fifo_flush q) ops' c
  end.

(** Reference behaviour: a queue of capacity 255 kept as the list of its
    pending bytes, oldest first. *)
Fixpoint model_ops (l : list Z) (ops : list op) (c : Z)
  : list (Z * Z) * list Z :=
  match ops with
  | [] => ([], l)
  | OpWrite b :: ops' =>
      if (length l <? 255)%nat then
        let '(rs, l2) := model_ops (l ++ [b]) ops' c in ((0, c) :: rs, l2)
      else
        let '(rs, l2) := model_ops l ops' c in ((-1, c) :: rs, l2)
  | OpRead :: ops' =>
      match l with
      | [] => let '(rs, l2) := model_ops [] ops' c in ((-1, c) :: rs, l2)
      | x :: l' => let '(rs, l2) := model_ops l' ops' x in ((0, x) :: rs, l2)
      end
  | OpFlush :: ops' => model_ops [] ops' c
  end.

(** The one state in which [fempty + 1] exceeds the [uint8_t] range. *)
Definition at_wrap_full (q : lf256fifo) : bool :=
  (fempty q =? 255) && (ffilled q =? 0).

(** Whether some write of the run is attempted in that state. *)
Fixpoint writes_at_wrap_full (q : lf256fifo) (ops : list op) (c : Z) : bool :=
  match ops with
  | [] => false
  | OpWrite b :: ops' =>
      at_wrap_full q || writes_at_wrap_full (lf256fifo_write q b).2 ops' c
  | OpRead :: ops' =>
      writes_at_wrap_full (lf256fifo_read q c).1.2 ops' (lf256fifo_read q c).2
  | OpFlush :: ops' => writes_at_wrap_full (lf256fifo_flush q) ops' c
  end.

(** ** Accelerometer driver: raw samples and their conversion
    (drivers/accel/adxl314/adxl314.c) *)

(** Conversions to the fixed-width integer types the driver uses.  A value
    out of range for a signed type wraps modulo 2^width, as the compilers
    the driver is built with define it. *)
Definition to_uint16 (z : Z) : Z := z mod 65536.
Definition to_int16 (z : Z) : Z := (z + 32768) mod 65536 - 32768.
Definition to_int64 (z : Z) : Z :=
  (z + 9223372036854775808) mod 18446744073709551616 - 9223372036854775808.

(** [ADXL314_ACC_SCALE_FACTOR_MUL] of adxl314.h. *)
Definition ADXL314_ACC_SCALE_FACTOR_MUL : Z := 4903325.

(** [adxl314_accel_conv(uint16_t raw_accel)]: the raw value is cast to
    [int16_t], widened to [int64_t] and multiplied by the scale factor in
    [int64_t]. *)
Definition adxl314_accel_conv (raw_accel : Z) : Z :=
  let accel_data := to_int64 (to_int16 raw_accel) in
  to_int64 (accel_data * ADXL314_ACC_SCALE_FACTOR_MUL).

(** [((int16_t)hi << 8) + lo] stored into an [int16_t]: the expression that
    builds one axis sample from two register bytes.  The shift and the sum
    are computed in [int] (32 bits). *)
Definition adxl314_axis_sample (lo hi : Z) : Z :=
  to_int16 (Z.shiftl (to_int16 hi) 8 + lo).

(** [adxl314_get_raw_xyz].  [rd] is what the call of
    [adxl314_read_device_data] for the six data registers gave: its return
    value and the content of [xyz_values] afterwards.  [x], [y], [z] are the
    contents of the three output locations before the call; the result is
    the return value with their contents afterwards. *)
Definition adxl314_get_raw_xyz (rd : Z * list Z) (x y z : Z)
  : Z * (Z * Z * Z) :=
  let '(ret, xyz_values) := rd in
  if negb (ret =? 0) then (ret, (x, y, z))
  else
    (ret,
     (adxl314_axis_sample (load xyz_values 0) (load xyz_values 1),
      adxl314_axis_sample (load xyz_values 2) (load xyz_values 3),
      adxl314_axis_sample (load xyz_values 4) (load xyz_values 5))).

(** ** Accelerometer driver: register access *)

(** [errno.h]. *)
Definition EPIPE : Z := 32.

(** adxl314.h. *)
Definition ADXL314_SPI_READ : Z := 0x80.
Definition ADXL314_SPI_WRITE : Z := 0x00.
Definition ADXL314_ADDR (x : Z) : Z := Z.land x 0x3F.

Inductive adxl314_comm_type : Type :=
  | ADXL314_SPI_COMM
  | ADXL314_I2C_COMM.

Inductive bit_action : Type :=
  | DISABLE_E
  | ENABLE_E.

(** The fields of [struct adxl314_dev] the register access functions use. *)
Record adxl314_dev : Type := Dev {
  comm_type : adxl314_comm_type;
  comm_buff : list Z;
}.

(** [for (idx = 0; idx < size; idx++) dst[dst_off + idx] = src[src_off + idx];] *)
Definition copy_bytes (src : list Z) (src_off : Z) (dst : list Z) (dst_off : Z)
    (size : Z) : list Z :=
  foldl (λ d idx, store d (dst_off + Z.of_nat idx)
                    (load src (src_off + Z.of_nat idx)))
        dst (seq 0 (Z.to_nat size)).

Section Bus.
(** The bus functions of no_os_spi.h and no_os_i2c.h and the device behind
    them are outside this file: [hw] is their state, and each function
    returns its result code, the content of the buffer it was given
    afterwards, and the state afterwards.  [ADXL314_MULTIBIT] is given by a
    macro of no_os_util.h. *)
Variable hw : Type.
Variable no_os_spi_write_and_read : hw → list Z → Z → Z * list Z * hw.
Variable no_os_i2c_write : hw → list Z → Z → Z → Z * list Z * hw.
Variable no_os_i2c_read : hw → list Z → Z → Z → Z * list Z * hw.
Variable ADXL314_MULTIBIT : Z.

(** [adxl314_read_device_data(dev, base_address, size, read_data)]: the
    result is the return value, the content of [read_data] afterwards, the
    device structure afterwards and the bus state afterwards. *)
Definition adxl314_read_device_data (dev : adxl314_dev) (h : hw)
    (base_address size : Z) (read_data : list Z)
  : Z * list Z * adxl314_dev * hw :=
  match comm_type dev with
  | ADXL314_SPI_COMM =>
      let b0 := to_uint8 (Z.lor ADXL314_SPI_READ base_address) in
      let b0 := if 1 <? size then to_uint8 (Z.lor b0 ADXL314_MULTIBIT) else b0 in
      let '(ret, buf, h1) :=
        no_os_spi_write_and_read h (store (comm_buff dev) 0 b0) (1 + size) in
      (ret, copy_bytes buf 1 read_data 0 size,
       {| comm_type := comm_type dev; comm_buff := buf |}, h1)
  | ADXL314_I2C_COMM =>
      let '(ret, _, h1) := no_os_i2c_write h [base_address] 1 0 in
      if negb (ret =? 0) then (ret, read_data, dev, h1)
      else
        let '(ret, rd, h2) := no_os_i2c_read h1 read_data size 1 in
        (ret, rd, dev, h2)
  end.

(** [adxl314_write_device_data(dev, base_address, size, write_data)]: the
    result is the return value, the device structure afterwards and the
    bus state afterwards. *)
Definition adxl314_write_device_data (dev : adxl314_dev) (h : hw)
    (base_address size : Z) (write_data : list Z)
  : Z * adxl314_dev * hw :=
  let buf := copy_bytes write_data 0 (comm_buff dev) 1 size in
  match comm_type dev with
  | ADXL314_SPI_COMM =>
      let b0 := to_uint8 (Z.lor ADXL314_SPI_WRITE base_address) in
      let b0 := if 1 <? size then to_uint8 (Z.lor b0 ADXL314_MULTIBIT) else b0 in
      let '(ret, buf1, h1) :=
        no_os_spi_write_and_read h (store buf 0 b0) (size + 1) in
      (ret, {| comm_type := comm_type dev; comm_buff := buf1 |}, h1)
  | ADXL314_I2C_COMM =>
      let '(ret, buf1, h1) :=
        no_os_i2c_write h (store buf 0 base_address) (size + 1) 1 in
      (ret, {| comm_type := comm_type dev; comm_buff := buf1 |}, h1)
  end.

(** [adxl314_control_reg_bit(dev, base_address, action, modified_bit)]. *)
Definition adxl314_control_reg_bit (dev : adxl314_dev) (h : hw)
    (base_address : Z) (action : bit_action) (modified_bit : Z)
  : Z * adxl314_dev * hw :=
  let '(ret, rd, dev1, h1) :=
    adxl314_read_device_data dev h (ADXL314_ADDR base_address) 1 [0] in
  if negb (ret =? 0) then (- EPIPE, dev1, h1)
  else
    let reg_data := load rd 0 in
    let reg_data :=
      match action with
      | DISABLE_E => to_uint8 (Z.land reg_data (Z.lnot modified_bit))
      | ENABLE_E => to_uint8 (Z.lor reg_data modified_bit)
      end in
    let '(ret, dev2, h2) :=
      adxl314_write_device_data dev1 h1 (ADXL314_ADDR base_address) 1 [reg_data] in
    if negb (ret =? 0) then (- EPIPE, dev2, h2) else (ret, dev2, h2).

(** [adxl314_reg_write_msk(dev, reg_addr, data, mask)].  [reg_data0] is the
    indeterminate initial content of the local [reg_data]. *)
Definition adxl314_reg_write_msk (dev : adxl314_dev) (h : hw)
    (reg_addr data mask : Z) (reg_data0 : Z)
  : Z * adxl314_dev * hw :=
  let '(ret, rd, dev1, h1) :=
    adxl314_read_device_data dev h (ADXL314_ADDR reg_addr) 1 [reg_data0] in
  if negb (ret =? 0) then (ret, dev1, h1)
  else
    let reg_data := load rd 0 in
    let reg_data := to_uint8 (Z.land reg_data (Z.lnot mask)) in
    let reg_data := to_uint8 (Z.lor reg_data data) in
    adxl314_write_device_data dev1 h1 (ADXL314_ADDR reg_addr) 1 [reg_data].
End Bus.

(** A one-register device on an always-succeeding bus, used to run the
    register functions on concrete inputs: the bus state is the content of
    the register; an SPI frame whose command byte has the read flag
    returns it in the second byte, any other frame stores its second
    byte. *)
Definition sim_spi (h : Z) (buf : list Z) (n : Z) : Z * list Z * Z :=
  if Z.testbit (load buf 0) 7 then (0, store buf 1 h, h)
  else (0, buf, load buf 1).

Definition sim_i2c (h : Z) (buf : list Z) (n stop : Z) : Z * list Z * Z :=
  (0, buf, h).

Definition sim_dev : adxl314_dev :=
  {| comm_type := ADXL314_SPI_COMM; comm_buff := replicate 24 0 |}.

(** * Properties *)

(** ** Arithmetic of the [uint8_t] indices *)

Lemma to_uint8_mod z : to_uint8 z = z mod 256.
Proof. reflexivity. Qed.

Ltac mod256 :=
  rewrite ?to_uint8_mod in *;
  unfold pending_count in *;
  cbn [data ffilled fempty] in *;
  Z.to_euclidean_division_equations; lia.

Lemma to_uint8_range z : 0 ≤ to_uint8 z < 256.
Proof. mod256. Qed.

Lemma to_uint8_succ_ne i : 0 ≤ i < 256 → to_uint8 (i + 1) ≠ i.
Proof. intros Hi. mod256. Qed.

(** ** The predicates *)

Lemma is_empty_true q : lf256fifo_is_empty q = true ↔ ffilled q = fempty q.
Proof. unfold lf256fifo_is_empty. rewrite Z.eqb_eq. split; congruence. Qed.

Lemma is_empty_false q : lf256fifo_is_empty q = false ↔ ffilled q ≠ fempty q.
Proof. unfold lf256fifo_is_empty. rewrite Z.eqb_neq. split; congruence. Qed.

(** What the comparison in [lf256fifo_is_full] decides: equality of the
    unwrapped sum with the consumer index. *)
Lemma is_full_true q : lf256fifo_is_full q = true ↔ fempty q + 1 = ffilled q.
Proof. unfold lf256fifo_is_full. apply Z.eqb_eq. Qed.

(** On well-formed states the test agrees with the modular one except in
    the state [fempty = 255], [ffilled = 0]. *)
Lemma is_full_modular q :
  wf q →
  (lf256fifo_is_full q = true ↔
   (fempty q + 1) mod 256 = ffilled q ∧ ¬ (fempty q = 255 ∧ ffilled q = 0)).
Proof.
  intros (_ & Hh & Ht). rewrite is_full_true. split.
  - intros E. split; [mod256 | lia].
  - intros [E N]. mod256.
Qed.

(** C1: in the wraparound state [fempty = 255], [ffilled = 0] the modular
    condition [(tail + 1) mod 256 = head] holds, but [lf256fifo_is_full]
    answers [false], whatever the buffer holds. *)
Theorem is_full_misses_wraparound_state (d : list Z) :
  let q := {| data := d; ffilled := 0; fempty := 255 |} in
  (fempty q + 1) mod 256 = ffilled q ∧ lf256fifo_is_full q = false.
Proof. split; reflexivity. Qed.

(** ** Single calls *)

Lemma read_empty q c :
  ffilled q = fempty q → lf256fifo_read q c = (-1, q, c).
Proof.
  intros E. unfold lf256fifo_read.
  by rewrite (proj2 (is_empty_true q) E).
Qed.

Lemma read_nonempty q c :
  ffilled q ≠ fempty q →
  lf256fifo_read q c =
    (0,
     {| data := data q; ffilled := (ffilled q + 1) mod 256; fempty := fempty q |},
     load (data q) (ffilled q)).
Proof.
  intros N. unfold lf256fifo_read.
  by rewrite (proj2 (is_empty_false q) N).
Qed.

Lemma write_accepted q c :
  fempty q + 1 ≠ ffilled q →
  lf256fifo_write q c =
    (0,
     {| data := <[Z.to_nat (fempty q) := c]> (data q);
        ffilled := ffilled q;
        fempty := (fempty q + 1) mod 256 |}).
Proof.
  intros N. unfold lf256fifo_write, lf256fifo_is_full.
  by rewrite (proj2 (Z.eqb_neq _ _) N).
Qed.

Lemma write_rejected q c :
  fempty q + 1 = ffilled q → lf256fifo_write q c = (-1, q).
Proof.
  intros E. unfold lf256fifo_write.
  by rewrite (proj2 (is_full_true q) E).
Qed.

Lemma load_in_range (d : list Z) i :
  length d = 256%nat → 0 ≤ i < 256 → d !! Z.to_nat i = Some (load d i).
Proof.
  intros Hl Hi. unfold load.
  destruct (lookup_lt_is_Some_2 d (Z.to_nat i)) as [b Hb]; [lia |].
  by rewrite Hb.
Qed.

(** C4: on an empty queue ([ffilled = fempty]) a read returns the error
    value -1 and changes neither the buffer nor an index; on a non-empty
    queue it returns 0, delivers the byte stored at [ffilled] and advances
    [ffilled] by one modulo 256, leaving buffer and [fempty] as they were. *)
Theorem read_spec (q : lf256fifo) (c : Z) :
  (ffilled q = fempty q → lf256fifo_read q c = (-1, q, c)) ∧
  (wf q → ffilled q ≠ fempty q →
   ∃ b, data q !! Z.to_nat (ffilled q) = Some b ∧
        lf256fifo_read q c =
          (0,
           {| data := data q;
              ffilled := (ffilled q + 1) mod 256;
              fempty := fempty q |},
           b)).
Proof.
  split.
  - apply read_empty.
  - intros (Hl & Hh & _) N. exists (load (data q) (ffilled q)). split.
    + by apply load_in_range.
    + by apply read_nonempty.
Qed.

Lemma read_spec_witness :
  lf256fifo_read fresh 7 = (-1, fresh, 7) ∧
  ∃ b, data (Fifo (replicate 256 9) 255 3) !! Z.to_nat 255 = Some b ∧
       lf256fifo_read (Fifo (replicate 256 9) 255 3) 7 =
         (0, Fifo (replicate 256 9) ((255 + 1) mod 256) 3, b).
Proof.
  split.
  - apply (proj1 (read_spec fresh 7)). reflexivity.
  - apply (proj2 (read_spec (Fifo (replicate 256 9) 255 3) 7)).
    + repeat split; simpl; lia.
    + simpl. lia.
Defined.

(** C5: in the state [fempty = 255], [ffilled = 0], which is full in the
    sense [(tail + 1) mod 256 = head], a write is not rejected: it returns
    0, overwrites slot 255 and wraps [fempty] to 0, which leaves the queue
    reporting empty. *)
Theorem write_on_wraparound_full_state_mutates (d : list Z) (c : Z) :
  let q := {| data := d; ffilled := 0; fempty := 255 |} in
  (fempty q + 1) mod 256 = ffilled q ∧
  lf256fifo_write q c =
    (0, {| data := <[255%nat := c]> d; ffilled := 0; fempty := 0 |}) ∧
  lf256fifo_is_empty (lf256fifo_write q c).2 = true.
Proof. repeat split. Qed.

(** C8: a write leaves [ffilled] alone and changes no buffer slot other
    than the one at the old [fempty] (nor the buffer length); a read leaves
    [fempty] and the whole buffer alone. *)
Theorem index_ownership_frame (q : lf256fifo) (c : Z) :
  (ffilled (lf256fifo_write q c).2 = ffilled q ∧
   length (data (lf256fifo_write q c).2) = length (data q) ∧
   ∀ i : nat, i ≠ Z.to_nat (fempty q) →
     data (lf256fifo_write q c).2 !! i = data q !! i) ∧
  (fempty (lf256fifo_read q c).1.2 = fempty q ∧
   data (lf256fifo_read q c).1.2 = data q).
Proof.
  split.
  - unfold lf256fifo_write. destruct (lf256fifo_is_full q); simpl.
    + done.
    + unfold store. rewrite length_insert. repeat split.
      intros i Hi. by apply list_lookup_insert_ne.
  - unfold lf256fifo_read. by destruct (lf256fifo_is_empty q).
Qed.

Lemma index_ownership_frame_witness :
  data (lf256fifo_write fresh 65).2 !! 1%nat = data fresh !! 1%nat.
Proof.
  apply (proj1 (index_ownership_frame fresh 65)). simpl. lia.
Defined.

(** C10: a read from an empty queue returns -1 and leaves the content of
    the caller's output location as it was. *)
Theorem read_empty_keeps_output (q : lf256fifo) (c : Z) :
  lf256fifo_is_empty q = true →
  (lf256fifo_read q c).1.1 = -1 ∧ (lf256fifo_read q c).2 = c.
Proof. intros E. unfold lf256fifo_read. by rewrite E. Qed.

Lemma read_empty_keeps_output_witness :
  (lf256fifo_read fresh 90).1.1 = -1 ∧ (lf256fifo_read fresh 90).2 = 90.
Proof. apply (read_empty_keeps_output fresh 90). reflexivity. Defined.

(** ** Flush *)

Lemma read_many_empty n : ∀ q c,
  ffilled q = fempty q → read_many q n c = (replicate n (-1, c), q).
Proof.
  induction n as [| n IH]; intros q c E; simpl.
  - done.
  - rewrite (read_empty q c E). by rewrite (IH q c E).
Qed.

(** C6: flush sets [ffilled] to [fempty] and touches neither [fempty] nor
    the buffer; afterwards the queue reports empty and any number of reads
    all return -1 without changing the state or the output location; a
    write that follows is accepted and the next read then delivers its
    byte. *)
Theorem flush_spec (q : lf256fifo) :
  ffilled (lf256fifo_flush q) = fempty q ∧
  fempty (lf256fifo_flush q) = fempty q ∧
  data (lf256fifo_flush q) = data q ∧
  lf256fifo_is_empty (lf256fifo_flush q) = true ∧
  (∀ (n : nat) (c : Z),
     read_many (lf256fifo_flush q) n c =
       (replicate n (-1, c), lf256fifo_flush q)) ∧
  (wf q → ∀ b c : Z,
     (lf256fifo_write (lf256fifo_flush q) b).1 = 0 ∧
     let q1 := (lf256fifo_write (lf256fifo_flush q) b).2 in
     (lf256fifo_read q1 c).1.1 = 0 ∧ (lf256fifo_read q1 c).2 = b).
Proof.
  split; [done |]. split; [done |]. split; [done |].
  split; [unfold lf256fifo_is_empty; simpl; apply Z.eqb_refl |].
  split; [intros n c; by apply read_many_empty |].
  intros (Hl & _ & Ht) b c.
  rewrite write_accepted by (simpl; lia). simpl.
  split; [done |].
  rewrite read_nonempty; simpl.
  - split; [done |]. unfold load.
    rewrite list_lookup_insert_eq; [done | lia].
  - intros E. by apply (to_uint8_succ_ne (fempty q)).
Qed.

Lemma flush_spec_witness :
  (lf256fifo_write (lf256fifo_flush (Fifo (replicate 256 5) 250 255)) 65).1 = 0 ∧
  let q1 := (lf256fifo_write (lf256fifo_flush (Fifo (replicate 256 5) 250 255)) 65).2 in
  (lf256fifo_read q1 7).1.1 = 0 ∧ (lf256fifo_read q1 7).2 = 65.
Proof.
  apply (flush_spec (Fifo (replicate 256 5) 250 255)).
  repeat split; simpl; lia.
Defined.

(** ** Initialisation *)

(** C7: [lf256fifo_init] returns [-EINVAL] exactly when the out-pointer is
    [NULL], returns [-ENOMEM] exactly when the out-pointer is given and one
    of the two allocation requests it makes fails, and otherwise returns 0
    having stored there a queue with a zero-filled 256-byte buffer and
    [ffilled = fempty = 0], which reports empty; the control block and the
    buffer are then the two blocks added to the heap. *)
Theorem init_spec (sz : nat) (fifo : option (option lf256fifo)) (h : heap) :
  let ret := (lf256fifo_init sz fifo h).1.1 in
  let out := (lf256fifo_init sz fifo h).1.2 in
  let h' := (lf256fifo_init sz fifo h).2 in
  (ret = - EINVAL ↔ fifo = None) ∧
  (ret = - ENOMEM ↔
     fifo ≠ None ∧
     (calloc_fails h 1 sz = true ∨
      ∃ blk h1, calloc h 1 sz = (Some blk, h1) ∧ calloc_fails h1 1 256 = true)) ∧
  (ret ≠ - EINVAL → ret ≠ - ENOMEM →
     ret = 0 ∧
     ∃ q, out = Some (Some q) ∧
          data q = replicate 256 0 ∧ length (data q) = 256%nat ∧
          ffilled q = 0 ∧ fempty q = 0 ∧
          lf256fifo_is_empty q = true ∧
          live h' = 256%nat :: (1 * sz)%nat :: live h).
Proof.
  unfold lf256fifo_init, calloc_fails, EINVAL, ENOMEM.
  destruct fifo as [old |]; simpl.
  2: { repeat split; try done. intros [N _]. done. }
  destruct (calloc h 1 sz) as [[blk |] h1] eqn:E1; simpl.
  2: { repeat split; try done. auto. }
  destruct (calloc h1 1 256) as [[buf |] h2] eqn:E2; simpl.
  - split; [done |]. split.
    + split; [done |]. intros [_ [N | (blk' & h1' & Eq & F)]]; [done |].
      injection Eq as <- <-. by rewrite E2 in F.
    + intros _ _. split; [done |]. exists (Fifo buf 0 0).
      unfold calloc in E1, E2.
      destruct (oracle h) as [| [] o]; try done. injection E1 as <- <-.
      simpl in E2. destruct o as [| [] o']; try done. injection E2 as <- <-.
      repeat split.
  - split; [done |]. split; [| done].
    split; [| done]. intros _. split; [done |]. right.
    exists blk, h1. by rewrite E2.
Qed.

Lemma init_spec_witness :
  (lf256fifo_init 8 (Some None) (Heap [true; true] [])).1.1 = 0 ∧
  ∃ q, (lf256fifo_init 8 (Some None) (Heap [true; true] [])).1.2 = Some (Some q) ∧
       data q = replicate 256 0 ∧ length (data q) = 256%nat ∧
       ffilled q = 0 ∧ fempty q = 0 ∧
       lf256fifo_is_empty q = true ∧
       live (lf256fifo_init 8 (Some None) (Heap [true; true] [])).2 =
         256%nat :: (1 * 8)%nat :: [].
Proof.
  apply (init_spec 8 (Some None) (Heap [true; true] [])); vm_compute; discriminate.
Defined.

(** When the second request fails the control block is released again. *)
Lemma init_no_leak sz old o l :
  (lf256fifo_init sz (Some old) (Heap (true :: false :: o) l)).2 = Heap o l.
Proof.
  unfold lf256fifo_init, calloc, free. simpl.
  by rewrite Nat.eqb_refl.
Qed.

(** A successful call hands out [fresh]. *)
Lemma init_gives_fresh sz old o l :
  (lf256fifo_init sz (Some old) (Heap (true :: true :: o) l)).1 =
    (0, Some (Some fresh)).
Proof. reflexivity. Qed.

(** ** Well-formedness is kept by every operation *)

Lemma wf_fresh : wf fresh.
Proof. repeat split; simpl; lia. Qed.

Lemma wf_write q c : wf q → wf (lf256fifo_write q c).2.
Proof.
  intros (Hl & Hh & Ht). unfold lf256fifo_write.
  destruct (lf256fifo_is_full q); simpl; [done |].
  unfold wf, store; simpl. rewrite length_insert.
  split; [done |]. split; [done |]. apply to_uint8_range.
Qed.

Lemma wf_read q c : wf q → wf (lf256fifo_read q c).1.2.
Proof.
  intros (Hl & Hh & Ht). unfold lf256fifo_read.
  destruct (lf256fifo_is_empty q); simpl; [done |].
  unfold wf; simpl. split; [done |]. split; [apply to_uint8_range | done].
Qed.

Lemma wf_flush q : wf q → wf (lf256fifo_flush q).
Proof. intros (Hl & Hh & Ht). by unfold wf. Qed.

Lemma reachable_wf q : reachable q → wf q.
Proof.
  induction 1; auto using wf_fresh, wf_write, wf_read, wf_flush.
Qed.

(** ** Filling a fresh queue *)

(** While [ffilled] is 0 the test in [lf256fifo_is_full] never fires. *)
Lemma write_all_head_zero bs : ∀ q,
  ffilled q = 0 → 0 ≤ fempty q < 256 →
  (write_all q bs).1 = replicate (length bs) 0 ∧
  ffilled (write_all q bs).2 = 0 ∧
  fempty (write_all q bs).2 = (fempty q + Z.of_nat (length bs)) mod 256.
Proof.
  induction bs as [| b bs IH]; intros q Hh Ht; simpl.
  - repeat split; [done |]. mod256.
  - rewrite write_accepted by lia.
    set (q1 := Fifo _ _ _).
    destruct (IH q1) as (R & H0 & T); [done | apply to_uint8_range |].
    destruct (write_all q1 bs) as [rs q2]. simpl in *.
    rewrite R, H0, T. repeat split. mod256.
Qed.

(** C2: starting from a fresh queue every write of every sequence is
    accepted (return value 0) and [lf256fifo_is_full] is false after each
    of them: after 255 writes the queue does not report full, the 256th
    write returns 0 and wraps [fempty] to 0, and the queue then reports
    empty. *)
Theorem fill_from_fresh_never_full (bs : list Z) :
  (write_all fresh bs).1 = replicate (length bs) 0 ∧
  lf256fifo_is_full (write_all fresh bs).2 = false ∧
  ffilled (write_all fresh bs).2 = 0 ∧
  fempty (write_all fresh bs).2 = Z.of_nat (length bs) mod 256 ∧
  lf256fifo_is_empty (write_all fresh bs).2 =
    (Z.of_nat (length bs) mod 256 =? 0).
Proof.
  destruct (write_all_head_zero bs fresh) as (R & H0 & T); [done | simpl; lia |].
  simpl in T.
  unfold lf256fifo_is_full, lf256fifo_is_empty. rewrite R, H0, T.
  repeat split. apply Z.eqb_neq. mod256.
Qed.

(** The same on the concrete run of 256 writes of the byte 0x41. *)
Example fill_256_from_fresh :
  (write_all fresh (replicate 255 65)).1 = replicate 255 0 ∧
  lf256fifo_is_full (write_all fresh (replicate 255 65)).2 = false ∧
  lf256fifo_write (write_all fresh (replicate 255 65)).2 65 =
    (0, {| data := replicate 256 65; ffilled := 0; fempty := 0 |}).
Proof. vm_compute. repeat split. Qed.

(** ** Ordering *)

Lemma slots_from_insert n : ∀ (d : list Z) h c,
  length d = 256%nat → 0 ≤ h < 256 → (n ≤ 255)%nat →
  slots_from (<[Z.to_nat ((h + Z.of_nat n) mod 256) := c]> d) h (S n) =
    slots_from d h n ++ [c].
Proof.
  induction n as [| n IH]; intros d h c Hl Hh Hn.
  - simpl. unfold load.
    replace ((h + Z.of_nat 0) mod 256) with h by mod256.
    rewrite list_lookup_insert_eq; [done | lia].
  - change (slots_from d h (S n)) with
      (load d h :: slots_from d (to_uint8 (h + 1)) n).
    change (slots_from ?d' h (S (S n))) with
      (load d' h :: slots_from d' (to_uint8 (h + 1)) (S n)).
    simpl app. f_equal.
    + unfold load. rewrite list_lookup_insert_ne; [done |].
      intros E. apply Z2Nat.inj in E; mod256.
    + replace ((h + Z.of_nat (S n)) mod 256)
        with ((to_uint8 (h + 1) + Z.of_nat n) mod 256)
        by mod256.
      apply IH; [done | apply to_uint8_range | lia].
Qed.

Lemma write_pending q c :
  wf q → pending_count q < 255 →
  (lf256fifo_write q c).1 = 0 ∧
  pending_count (lf256fifo_write q c).2 = pending_count q + 1 ∧
  pending (lf256fifo_write q c).2 = pending q ++ [c].
Proof.
  intros (Hl & Hh & Ht) Hc.
  rewrite write_accepted by mod256. simpl.
  assert (Hc' : pending_count
            (Fifo (<[Z.to_nat (fempty q) := c]> (data q)) (ffilled q)
                  ((fempty q + 1) mod 256)) = pending_count q + 1)
    by (simpl; mod256).
  repeat split; [done |].
  unfold pending. rewrite Hc'. simpl.
  replace (Z.to_nat (pending_count q + 1))
    with (S (Z.to_nat (pending_count q))) by mod256.
  replace (fempty q)
    with ((ffilled q + Z.of_nat (Z.to_nat (pending_count q))) mod 256) at 1
    by mod256.
  apply slots_from_insert; [done | done | mod256].
Qed.

Lemma write_all_pending bs : ∀ q,
  wf q → pending_count q + Z.of_nat (length bs) ≤ 255 →
  Forall (λ r, r = 0) (write_all q bs).1 ∧
  wf (write_all q bs).2 ∧
  pending (write_all q bs).2 = pending q ++ bs.
Proof.
  induction bs as [| b bs IH]; intros q Hwf Hc; simpl.
  - repeat split; [constructor | apply Hwf.. |]. by rewrite app_nil_r.
  - simpl length in Hc.
    destruct (write_pending q b Hwf) as (R & C & P); [lia |].
    pose proof (wf_write q b Hwf) as Hwf1.
    destruct (lf256fifo_write q b) as [r q1]. simpl in *.
    destruct (IH q1 Hwf1) as (Rs & Hwf2 & Ps); [lia |].
    destruct (write_all q1 bs) as [rs q2]. simpl in *.
    split; [by constructor |]. split; [done |].
    rewrite Ps, P. by rewrite <- app_assoc.
Qed.

Lemma read_many_pending n : ∀ q c,
  wf q → pending_count q = Z.of_nat n →
  (read_many q n c).1 = map (λ b, (0, b)) (pending q).
Proof.
  induction n as [| n IH]; intros q c Hwf Hc; unfold pending; rewrite Hc.
  - done.
  - destruct Hwf as (Hl & Hh & Ht).
    rewrite Nat2Z.id. simpl.
    rewrite read_nonempty by mod256.
    set (q1 := Fifo _ _ _).
    assert (Hwf1 : wf q1) by (subst q1; repeat split; simpl; first [done | mod256]).
    assert (Hc1 : pending_count q1 = Z.of_nat n) by (subst q1; mod256).
    specialize (IH q1 (load (data q) (ffilled q)) Hwf1 Hc1).
    destruct (read_many q1 n _) as [rs q2]. simpl in *.
    rewrite IH. unfold pending. rewrite Hc1, Nat2Z.id. done.
Qed.

Lemma pending_length q : length (pending q) = Z.to_nat (pending_count q).
Proof.
  unfold pending. generalize (ffilled q).
  induction (Z.to_nat (pending_count q)) as [| n IH]; intros h; simpl;
    [done | by rewrite IH].
Qed.

(** Bytes already pending are delivered first, then the new ones. *)
Lemma fifo_order_general q bs c :
  wf q → pending_count q + Z.of_nat (length bs) ≤ 255 →
  Forall (λ r, r = 0) (write_all q bs).1 ∧
  (read_many (write_all q bs).2 (length (pending q ++ bs)) c).1 =
    map (λ b, (0, b)) (pending q ++ bs).
Proof.
  intros Hwf Hc.
  destruct (write_all_pending bs q Hwf Hc) as (R & Hwf' & P).
  split; [done |]. rewrite <- P. apply read_many_pending; [done |].
  rewrite pending_length.
  destruct Hwf' as (_ & ? & ?). mod256.
Qed.

Lemma fifo_order_wf :
  fifo_order_from (λ q, wf q ∧ lf256fifo_is_empty q = true).
Proof.
  intros q bs c [Hwf E] Hk _ _.
  apply is_empty_true in E.
  assert (Hc : pending_count q = 0) by (destruct Hwf as (_ & ? & ?); mod256).
  assert (P : pending q = []) by (unfold pending; by rewrite Hc).
  destruct (fifo_order_general q bs c Hwf) as [_ R]; [lia |].
  by rewrite P in R.
Qed.

(** From an empty queue up to 255 writes are all accepted. *)
Lemma writes_accepted_from_empty q bs :
  wf q → lf256fifo_is_empty q = true → (length bs ≤ 255)%nat →
  Forall (λ r, r = 0) (write_all q bs).1.
Proof.
  intros Hwf E Hk. apply is_empty_true in E.
  apply write_all_pending; [done |].
  destruct Hwf as (_ & ? & ?). mod256.
Qed.

(** C3 as stated fails: from the reachable state holding one unread byte
    0x41, the byte 0x42 is accepted by a write, but the read that follows
    returns 0x41. *)
Lemma fifo_order_fails_from_nonempty : ¬ fifo_order_from reachable.
Proof.
  intros H.
  assert (R : reachable (lf256fifo_write fresh 65).2)
    by (apply reach_write; [apply reach_fresh | lia]).
  assert (K : (length [66] ≤ 255)%nat) by (simpl; lia).
  assert (F : Forall (λ b : Z, 0 ≤ b < 256) [66])
    by (constructor; [lia | constructor]).
  assert (A : Forall (λ r : Z, r = 0)
                (write_all (lf256fifo_write fresh 65).2 [66]).1)
    by (vm_compute; repeat constructor).
  specialize (H _ [66] 0 R K F A).
  vm_compute in H. discriminate H.
Qed.

(** C3 (amended): starting from any reachable empty queue, wherever its
    indices stand, up to 255 bytes accepted by consecutive writes are
    returned by the reads that follow in exactly the order written. *)
Theorem fifo_order_from_empty :
  fifo_order_from (λ q, reachable q ∧ lf256fifo_is_empty q = true).
Proof.
  intros q bs c [R E]. apply fifo_order_wf.
  split; [by apply reachable_wf | done].
Qed.

Lemma fifo_order_from_empty_witness :
  (read_many (write_all fresh [65; 66; 67]).2 3 0).1 =
    [(0, 65); (0, 66); (0, 67)].
Proof.
  apply (fifo_order_from_empty fresh [65; 66; 67] 0).
  - split; [apply reach_fresh | reflexivity].
  - simpl. lia.
  - repeat constructor; lia.
  - simpl. repeat constructor.
Defined.

(** The ordering across the index wraparound: three bytes written at slots
    254, 255 and 0. *)
Example fifo_order_across_wraparound :
  (read_many (write_all (Fifo (replicate 256 0) 254 254) [65; 66; 67]).2 3 0).1 =
    [(0, 65); (0, 66); (0, 67)].
Proof.
  apply (fifo_order_wf (Fifo (replicate 256 0) 254 254) [65; 66; 67] 0).
  - split; [repeat split; simpl; lia | reflexivity].
  - simpl. lia.
  - repeat constructor; lia.
  - simpl. repeat constructor.
Qed.

(** * Further properties of the queue *)

(** ** The invariant along arbitrary call sequences *)

(** X1: whatever sequence of writes, reads and flushes a client runs on a
    well-formed queue, the buffer keeps its 256 bytes and both indices stay
    within the [uint8_t] range. *)
Theorem run_ops_keeps_wf (ops : list op) :
  ∀ (q : lf256fifo) (c : Z), wf q → wf (run_ops q ops c).2.
Proof.
  induction ops as [| [b | |] ops IH]; intros q c Hwf; simpl.
  - done.
  - pose proof (wf_write q b Hwf) as H1.
    destruct (lf256fifo_write q b) as [r q1]. simpl in H1.
    specialize (IH q1 c H1). by destruct (run_ops q1 ops c).
  - pose proof (wf_read q c Hwf) as H1.
    destruct (lf256fifo_read q c) as [[r q1] c1]. simpl in H1.
    specialize (IH q1 c1 H1). by destruct (run_ops q1 ops c1).
  - apply IH. by apply wf_flush.
Qed.

Lemma run_ops_keeps_wf_witness :
  wf (run_ops fresh [OpWrite 65; OpRead; OpFlush; OpRead] 0).2.
Proof. apply (run_ops_keeps_wf _ fresh 0). repeat split; simpl; lia. Defined.

(** ** Status predicates against the number of pending bytes *)

Lemma pending_count_range q : 0 ≤ pending_count q ≤ 255.
Proof. mod256. Qed.

(** X2: on a well-formed queue [lf256fifo_is_empty] holds exactly when no
    byte is pending, [lf256fifo_is_full] holds only when 255 bytes are
    pending, and the two never hold together. *)
Theorem status_against_pending_count (q : lf256fifo) :
  wf q →
  (lf256fifo_is_empty q = true ↔ pending q = []) ∧
  (lf256fifo_is_full q = true → length (pending q) = 255%nat) ∧
  ¬ (lf256fifo_is_empty q = true ∧ lf256fifo_is_full q = true).
Proof.
  intros (Hl & Hh & Ht).
  rewrite is_empty_true, is_full_true.
  split; [| split].
  - split.
    + intros E. unfold pending.
      replace (pending_count q) with 0 by mod256. done.
    + intros P. apply (f_equal length) in P.
      rewrite pending_length in P. simpl in P.
      pose proof (pending_count_range q). mod256.
  - intros F. rewrite pending_length. mod256.
  - intros [E F]. lia.
Qed.

Lemma status_against_pending_count_witness :
  (lf256fifo_is_empty (Fifo (replicate 256 3) 10 9) = true ↔
     pending (Fifo (replicate 256 3) 10 9) = []) ∧
  (lf256fifo_is_full (Fifo (replicate 256 3) 10 9) = true →
     length (pending (Fifo (replicate 256 3) 10 9)) = 255%nat) ∧
  ¬ (lf256fifo_is_empty (Fifo (replicate 256 3) 10 9) = true ∧
     lf256fifo_is_full (Fifo (replicate 256 3) 10 9) = true).
Proof.
  apply (status_against_pending_count (Fifo (replicate 256 3) 10 9)).
  repeat split; simpl; lia.
Defined.

(** ** Capacity away from the wraparound state *)

Lemma write_ffilled q c : ffilled (lf256fifo_write q c).2 = ffilled q.
Proof. unfold lf256fifo_write. by destruct (lf256fifo_is_full q). Qed.

Lemma write_all_ffilled bs : ∀ q, ffilled (write_all q bs).2 = ffilled q.
Proof.
  induction bs as [| b bs IH]; intros q; simpl; [done |].
  pose proof (write_ffilled q b) as F.
  destruct (lf256fifo_write q b) as [r q1]. simpl in F.
  specialize (IH q1). destruct (write_all q1 bs). simpl in *. congruence.
Qed.

(** X3: starting from an empty queue whose indices are not at slot 0, the
    first 255 consecutive writes are all accepted, the queue then reports
    full, and a further write returns -1 and changes nothing. *)
Theorem capacity_when_head_nonzero (q : lf256fifo) (bs : list Z) (c : Z) :
  wf q → lf256fifo_is_empty q = true → ffilled q ≠ 0 →
  length bs = 255%nat →
  Forall (λ r, r = 0) (write_all q bs).1 ∧
  lf256fifo_is_full (write_all q bs).2 = true ∧
  lf256fifo_write (write_all q bs).2 c = (-1, (write_all q bs).2).
Proof.
  intros Hwf E Hh Hk. apply is_empty_true in E.
  assert (C0 : pending_count q = 0) by (destruct Hwf as (_ & ? & ?); mod256).
  destruct (write_all_pending bs q Hwf) as (R & Hwf' & P); [lia |].
  split; [done |].
  assert (F : fempty (write_all q bs).2 + 1 = ffilled (write_all q bs).2).
  { apply (f_equal length) in P.
    rewrite length_app, !pending_length, C0, Hk in P. simpl in P.
    pose proof (write_all_ffilled bs q) as Hf.
    pose proof (pending_count_range (write_all q bs).2).
    destruct Hwf as (_ & ? & ?), Hwf' as (_ & ? & ?). mod256. }
  split; [by apply is_full_true | by apply write_rejected].
Qed.

Lemma capacity_when_head_nonzero_witness :
  Forall (λ r, r = 0)
    (write_all (Fifo (replicate 256 0) 7 7) (replicate 255 65)).1 ∧
  lf256fifo_is_full
    (write_all (Fifo (replicate 256 0) 7 7) (replicate 255 65)).2 = true ∧
  lf256fifo_write
    (write_all (Fifo (replicate 256 0) 7 7) (replicate 255 65)).2 66 =
    (-1, (write_all (Fifo (replicate 256 0) 7 7) (replicate 255 65)).2).
Proof.
  apply (capacity_when_head_nonzero
           (Fifo (replicate 256 0) 7 7) (replicate 255 65) 66).
  - repeat split; simpl; lia.
  - reflexivity.
  - simpl. lia.
  - reflexivity.
Defined.

(** X4: when the queue reports full, a write is rejected without any change,
    the next read succeeds and delivers the oldest pending byte, and the
    write after that read is accepted. *)
Theorem full_queue_drains_one_slot (q : lf256fifo) (b c : Z) :
  wf q → lf256fifo_is_full q = true →
  lf256fifo_write q b = (-1, q) ∧
  (lf256fifo_read q c).1.1 = 0 ∧
  head (pending q) = Some (lf256fifo_read q c).2 ∧
  (lf256fifo_write (lf256fifo_read q c).1.2 b).1 = 0.
Proof.
  intros (Hl & Hh & Ht) F. apply is_full_true in F.
  split; [by apply write_rejected |].
  rewrite read_nonempty by lia. simpl.
  split; [done |]. split.
  - unfold pending.
    replace (Z.to_nat (pending_count q)) with (S 254) by mod256. done.
  - rewrite write_accepted; [done |]. simpl. mod256.
Qed.

Lemma full_queue_drains_one_slot_witness :
  lf256fifo_write (Fifo (replicate 256 4) 9 8) 65 =
    (-1, Fifo (replicate 256 4) 9 8) ∧
  (lf256fifo_read (Fifo (replicate 256 4) 9 8) 0).1.1 = 0 ∧
  head (pending (Fifo (replicate 256 4) 9 8)) =
    Some (lf256fifo_read (Fifo (replicate 256 4) 9 8) 0).2 ∧
  (lf256fifo_write (lf256fifo_read (Fifo (replicate 256 4) 9 8) 0).1.2 65).1 = 0.
Proof.
  apply (full_queue_drains_one_slot (Fifo (replicate 256 4) 9 8) 65 0).
  - repeat split; simpl; lia.
  - reflexivity.
Defined.

(** ** Reading back *)

Lemma read_pending q :
  wf q → ffilled q ≠ fempty q →
  pending q =
    load (data q) (ffilled q)
      :: pending (Fifo (data q) ((ffilled q + 1) mod 256) (fempty q)).
Proof.
  intros (Hl & Hh & Ht) N. unfold pending.
  replace (Z.to_nat (pending_count q))
    with (S (Z.to_nat (pending_count
                         (Fifo (data q) ((ffilled q + 1) mod 256) (fempty q)))))
    by mod256.
  done.
Qed.

Lemma read_many_drains n : ∀ q c,
  wf q → pending_count q = Z.of_nat n →
  lf256fifo_is_empty (read_many q n c).2 = true ∧
  fempty (read_many q n c).2 = fempty q ∧
  data (read_many q n c).2 = data q.
Proof.
  induction n as [| n IH]; intros q c Hwf Hc.
  - simpl. split; [| done]. apply is_empty_true.
    destruct Hwf as (_ & ? & ?). mod256.
  - destruct Hwf as (Hl & Hh & Ht). simpl.
    rewrite read_nonempty by mod256.
    set (q1 := Fifo _ _ _).
    assert (Hwf1 : wf q1) by (subst q1; repeat split; simpl; first [done | mod256]).
    assert (Hc1 : pending_count q1 = Z.of_nat n) by (subst q1; mod256).
    specialize (IH q1 (load (data q) (ffilled q)) Hwf1 Hc1).
    by destruct (read_many q1 n _).
Qed.

(** X5: after up to 255 bytes were written to an empty queue and as many
    were read back, the queue reports empty again, so a further read
    returns -1 and leaves the output location alone; the bytes written are
    still in the buffer, only the indices moved. *)
Theorem queue_empty_after_reading_back (q : lf256fifo) (bs : list Z) (c c' : Z) :
  wf q → lf256fifo_is_empty q = true → (length bs ≤ 255)%nat →
  let q' := (read_many (write_all q bs).2 (length bs) c).2 in
  lf256fifo_is_empty q' = true ∧
  lf256fifo_read q' c' = (-1, q', c') ∧
  ffilled q' = fempty (write_all q bs).2 ∧
  data q' = data (write_all q bs).2.
Proof.
  intros Hwf E Hk q'. apply is_empty_true in E.
  assert (C0 : pending_count q = 0) by (destruct Hwf as (_ & ? & ?); mod256).
  destruct (write_all_pending bs q Hwf) as (_ & Hwf' & P); [lia |].
  assert (C : pending_count (write_all q bs).2 = Z.of_nat (length bs)).
  { apply (f_equal length) in P.
    rewrite length_app, !pending_length, C0 in P. simpl in P.
    pose proof (pending_count_range (write_all q bs).2). lia. }
  destruct (read_many_drains _ _ c Hwf' C) as (E' & T & D).
  fold q' in E', T, D. split; [done |].
  apply is_empty_true in E'.
  split; [by apply read_empty |]. split; [congruence | done].
Qed.

Lemma queue_empty_after_reading_back_witness :
  let q' := (read_many (write_all (Fifo (replicate 256 0) 255 255) [1; 2; 3]).2
               (length [1; 2; 3]) 0).2 in
  lf256fifo_is_empty q' = true ∧
  lf256fifo_read q' 9 = (-1, q', 9) ∧
  ffilled q' = fempty (write_all (Fifo (replicate 256 0) 255 255) [1; 2; 3]).2 ∧
  data q' = data (write_all (Fifo (replicate 256 0) 255 255) [1; 2; 3]).2.
Proof.
  apply (queue_empty_after_reading_back
           (Fifo (replicate 256 0) 255 255) [1; 2; 3] 0 9).
  - repeat split; simpl; lia.
  - reflexivity.
  - simpl. lia.
Defined.

(** X6: bytes discarded by a flush never come back: whatever the queue
    held, after a flush up to 255 newly written bytes are all accepted and
    the reads that follow return exactly those bytes in the order written. *)
Theorem flush_discards_old_bytes (q : lf256fifo) (bs : list Z) (c : Z) :
  wf q → (length bs ≤ 255)%nat →
  pending (lf256fifo_flush q) = [] ∧
  Forall (λ r, r = 0) (write_all (lf256fifo_flush q) bs).1 ∧
  (read_many (write_all (lf256fifo_flush q) bs).2 (length bs) c).1 =
    map (λ b, (0, b)) bs.
Proof.
  intros Hwf Hk.
  pose proof (wf_flush q Hwf) as Hwf'.
  assert (C0 : pending_count (lf256fifo_flush q) = 0)
    by (unfold pending_count, lf256fifo_flush; simpl; by rewrite Z.sub_diag).
  assert (P : pending (lf256fifo_flush q) = [])
    by (unfold pending; by rewrite C0).
  split; [done |].
  destruct (fifo_order_general (lf256fifo_flush q) bs c Hwf') as [A R]; [lia |].
  rewrite P in R. done.
Qed.

Lemma flush_discards_old_bytes_witness :
  pending (lf256fifo_flush (Fifo (replicate 256 8) 3 200)) = [] ∧
  Forall (λ r, r = 0)
    (write_all (lf256fifo_flush (Fifo (replicate 256 8) 3 200)) [65; 66]).1 ∧
  (read_many (write_all (lf256fifo_flush (Fifo (replicate 256 8) 3 200)) [65; 66]).2
     (length [65; 66]) 0).1 = map (λ b, (0, b)) [65; 66].
Proof.
  apply (flush_discards_old_bytes (Fifo (replicate 256 8) 3 200) [65; 66] 0).
  - repeat split; simpl; lia.
  - simpl. lia.
Defined.

(** ** Arbitrary interleavings of writes, reads and flushes *)

Lemma at_wrap_full_false q :
  at_wrap_full q = false → ¬ (fempty q = 255 ∧ ffilled q = 0).
Proof.
  unfold at_wrap_full. intros F [Ht Hh].
  rewrite Ht, Hh in F. discriminate F.
Qed.

(** A write seen through the pending bytes, away from the wraparound
    state: appended while fewer than 255 bytes are pending, rejected
    otherwise. *)
Lemma write_step q b :
  wf q → at_wrap_full q = false →
  if (length (pending q) <? 255)%nat
  then (lf256fifo_write q b).1 = 0 ∧
       pending (lf256fifo_write q b).2 = pending q ++ [b]
  else lf256fifo_write q b = (-1, q).
Proof.
  intros Hwf W. apply at_wrap_full_false in W.
  pose proof (pending_count_range q) as Hr.
  rewrite pending_length.
  destruct (Nat.ltb_spec (Z.to_nat (pending_count q)) 255) as [Lt | Ge].
  - destruct (write_pending q b Hwf) as (R & _ & P); [lia | done].
  - apply write_rejected. destruct Hwf as (_ & ? & ?). mod256.
Qed.

(** A read seen through the pending bytes. *)
Lemma read_step q c :
  wf q →
  match pending q with
  | [] => lf256fifo_read q c = (-1, q, c)
  | x :: l =>
      (lf256fifo_read q c).1.1 = 0 ∧ (lf256fifo_read q c).2 = x ∧
      pending (lf256fifo_read q c).1.2 = l
  end.
Proof.
  intros Hwf.
  destruct (Z.eq_dec (ffilled q) (fempty q)) as [E | N].
  - replace (pending q) with (@nil Z); [by apply read_empty |].
    unfold pending. replace (pending_count q) with 0; [done |].
    destruct Hwf as (_ & ? & ?). mod256.
  - rewrite (read_pending q Hwf N), (read_nonempty q c N). done.
Qed.

(** X7: run from any well-formed state, a sequence of writes, reads and
    flushes in any order and of any length gives exactly the return values
    and bytes of a first-in first-out queue of capacity 255 started with
    the bytes then pending, and ends with the same pending bytes, provided
    no write of the run is attempted in the state [fempty = 255],
    [ffilled = 0]. *)
Theorem run_ops_refines_model (ops : list op) :
  ∀ (q : lf256fifo) (c : Z),
    wf q → writes_at_wrap_full q ops c = false →
    (run_ops q ops c).1 = (model_ops (pending q) ops c).1 ∧
    pending (run_ops q ops c).2 = (model_ops (pending q) ops c).2.
Proof.
  induction ops as [| [b | |] ops IH]; intros q c Hwf W; simpl in *.
  - done.
  - apply orb_false_elim in W as [W0 W1].
    pose proof (write_step q b Hwf W0) as S.
    pose proof (wf_write q b Hwf) as Hwf1.
    destruct (length (pending q) <? 255)%nat.
    + destruct S as [R P].
      destruct (lf256fifo_write q b) as [r q1]. simpl in *. subst r.
      destruct (IH q1 c Hwf1 W1) as [Rs Ps]. rewrite P in Rs, Ps.
      destruct (run_ops q1 ops c), (model_ops (pending q ++ [b]) ops c).
      simpl in *. by subst.
    + rewrite S in *. simpl in *.
      destruct (IH q c Hwf W1) as [Rs Ps].
      destruct (run_ops q ops c), (model_ops (pending q) ops c).
      simpl in *. by subst.
  - pose proof (read_step q c Hwf) as S.
    pose proof (wf_read q c Hwf) as Hwf1.
    destruct (pending q) as [| x l] eqn:P.
    + rewrite S in *. simpl in *.
      destruct (IH q c Hwf W) as [Rs Ps]. rewrite P in Rs, Ps.
      destruct (run_ops q ops c), (model_ops [] ops c).
      simpl in *. by subst.
    + destruct S as (R & C & P1).
      destruct (lf256fifo_read q c) as [[r q1] c1]. simpl in *. subst r c1.
      destruct (IH q1 x Hwf1 W) as [Rs Ps]. rewrite P1 in Rs, Ps.
      destruct (run_ops q1 ops x), (model_ops l ops x).
      simpl in *. by subst.
  - destruct (IH (lf256fifo_flush q) c (wf_flush q Hwf) W) as [Rs Ps].
    replace (pending (lf256fifo_flush q)) with (@nil Z) in Rs, Ps; [done |].
    unfold pending, pending_count, lf256fifo_flush. simpl.
    by rewrite Z.sub_diag.
Qed.

Lemma run_ops_refines_model_witness :
  (run_ops (Fifo (replicate 256 0) 254 254)
     [OpWrite 1; OpWrite 2; OpRead; OpWrite 3; OpRead; OpFlush; OpRead;
      OpWrite 4; OpRead] 0).1 =
    (model_ops (pending (Fifo (replicate 256 0) 254 254))
       [OpWrite 1; OpWrite 2; OpRead; OpWrite 3; OpRead; OpFlush; OpRead;
        OpWrite 4; OpRead] 0).1 ∧
  pending (run_ops (Fifo (replicate 256 0) 254 254)
     [OpWrite 1; OpWrite 2; OpRead; OpWrite 3; OpRead; OpFlush; OpRead;
      OpWrite 4; OpRead] 0).2 =
    (model_ops (pending (Fifo (replicate 256 0) 254 254))
       [OpWrite 1; OpWrite 2; OpRead; OpWrite 3; OpRead; OpFlush; OpRead;
        OpWrite 4; OpRead] 0).2.
Proof.
  apply (run_ops_refines_model _ (Fifo (replicate 256 0) 254 254) 0).
  - repeat split; simpl; lia.
  - reflexivity.
Defined.

(** The run of the witness, evaluated: the bytes come back in order across
    the index wraparound, a read after the flush finds nothing. *)
Example run_ops_across_wraparound :
  (run_ops (Fifo (replicate 256 0) 254 254)
     [OpWrite 1; OpWrite 2; OpRead; OpWrite 3; OpRead; OpFlush; OpRead;
      OpWrite 4; OpRead] 0).1 =
    [(0, 0); (0, 0); (0, 1); (0, 1); (0, 2); (-1, 2); (0, 2); (0, 4)].
Proof. reflexivity. Qed.

(** ** Failed initialisation *)

(** X8: when [lf256fifo_init] reports an error, no block stays allocated
    (the control block obtained before a failed buffer request has been
    freed) and the caller's out location holds what it held before. *)
Theorem init_failure_leaves_no_trace
  (sz : nat) (fifo : option (option lf256fifo)) (h : heap) :
  (lf256fifo_init sz fifo h).1.1 ≠ 0 →
  live (lf256fifo_init sz fifo h).2 = live h ∧
  (lf256fifo_init sz fifo h).1.2 = fifo.
Proof.
  unfold lf256fifo_init, calloc, free.
  destruct fifo as [old |]; [| done].
  destruct (oracle h) as [| [] o]; simpl; [done | | done].
  destruct o as [| [] o']; simpl; [| done |].
  - intros _. by rewrite Nat.add_0_r, Nat.eqb_refl.
  - intros _. by rewrite Nat.add_0_r, Nat.eqb_refl.
Qed.

Lemma init_failure_leaves_no_trace_witness :
  live (lf256fifo_init 8 (Some (Some fresh)) (Heap [true; false] [256%nat; 8%nat])).2 =
    live (Heap [true; false] [256%nat; 8%nat]) ∧
  (lf256fifo_init 8 (Some (Some fresh)) (Heap [true; false] [256%nat; 8%nat])).1.2 =
    Some (Some fresh).
Proof.
  apply (init_failure_leaves_no_trace
           8 (Some (Some fresh)) (Heap [true; false] [256%nat; 8%nat])).
  vm_compute. discriminate.
Defined.

(** * Accelerometer samples *)

Ltac wrap_lia :=
  unfold adxl314_accel_conv, adxl314_axis_sample, ADXL314_ACC_SCALE_FACTOR_MUL,
    to_int64, to_int16, to_uint16 in *;
  rewrite ?Z.shiftl_mul_pow2 in * by lia;
  change (2 ^ 8) with 256 in *;
  Z.to_euclidean_division_equations; lia.

(** X9: for every 16-bit raw value the product formed by
    [adxl314_accel_conv] stays far inside the [int64_t] range: the result
    is the signed reading times 4903325, it lies between -32768 * 4903325
    and 32767 * 4903325, and it is negative exactly for raw values from
    0x8000 on. *)
Theorem accel_conv_exact (raw : Z) :
  0 ≤ raw < 65536 →
  adxl314_accel_conv raw = to_int16 raw * 4903325 ∧
  -160672153600 ≤ adxl314_accel_conv raw ≤ 160667250275 ∧
  (adxl314_accel_conv raw < 0 ↔ 32768 ≤ raw).
Proof. intros Hr. repeat split; wrap_lia. Qed.

Lemma accel_conv_exact_witness :
  adxl314_accel_conv 65535 = to_int16 65535 * 4903325 ∧
  -160672153600 ≤ adxl314_accel_conv 65535 ≤ 160667250275 ∧
  (adxl314_accel_conv 65535 < 0 ↔ 32768 ≤ 65535).
Proof. apply (accel_conv_exact 65535). lia. Defined.

(** X10: a signed sample handed to [adxl314_accel_conv] through its
    [uint16_t] parameter, as [adxl314_get_xyz] does, is converted as the
    signed value it was: the result is the sample times 4903325, so the
    conversion keeps the order of samples. *)
Theorem accel_conv_of_signed_sample (v w : Z) :
  -32768 ≤ v < 32768 → -32768 ≤ w < 32768 →
  adxl314_accel_conv (to_uint16 v) = v * 4903325 ∧
  (v < w ↔ adxl314_accel_conv (to_uint16 v) < adxl314_accel_conv (to_uint16 w)).
Proof.
  intros Hv Hw.
  assert (E : ∀ u, -32768 ≤ u < 32768 →
                adxl314_accel_conv (to_uint16 u) = u * 4903325)
    by (intros u Hu; wrap_lia).
  rewrite !E by done. split; [done | lia].
Qed.

Lemma accel_conv_of_signed_sample_witness :
  adxl314_accel_conv (to_uint16 (-3)) = -3 * 4903325 ∧
  (-3 < 5 ↔ adxl314_accel_conv (to_uint16 (-3)) < adxl314_accel_conv (to_uint16 5)).
Proof. apply (accel_conv_of_signed_sample (-3) 5); lia. Defined.

Lemma axis_sample_bytes lo hi :
  0 ≤ lo < 256 → 0 ≤ hi < 256 →
  -32768 ≤ adxl314_axis_sample lo hi < 32768 ∧
  to_uint16 (adxl314_axis_sample lo hi) = lo + 256 * hi.
Proof. intros Hlo Hhi. split; wrap_lia. Qed.

(** X11: [adxl314_get_raw_xyz] passes a bus error on and leaves the three
    output locations alone; on success each axis is a value of the
    [int16_t] range whose 16-bit pattern is the low register byte below
    the high one, so both bytes can be recovered from it. *)
Theorem get_raw_xyz_spec (ret b0 b1 b2 b3 b4 b5 x y z : Z) :
  Forall (λ b, 0 ≤ b < 256) [b0; b1; b2; b3; b4; b5] →
  let r := adxl314_get_raw_xyz (ret, [b0; b1; b2; b3; b4; b5]) x y z in
  r.1 = ret ∧
  (ret ≠ 0 → r.2 = (x, y, z)) ∧
  (ret = 0 →
   Forall (λ v, -32768 ≤ v < 32768) [r.2.1.1; r.2.1.2; r.2.2] ∧
   to_uint16 r.2.1.1 = b0 + 256 * b1 ∧
   to_uint16 r.2.1.2 = b2 + 256 * b3 ∧
   to_uint16 r.2.2 = b4 + 256 * b5).
Proof.
  intros Hb r. subst r. unfold adxl314_get_raw_xyz.
  apply Forall_cons_1 in Hb as [H0 Hb]. apply Forall_cons_1 in Hb as [H1 Hb].
  apply Forall_cons_1 in Hb as [H2 Hb]. apply Forall_cons_1 in Hb as [H3 Hb].
  apply Forall_cons_1 in Hb as [H4 Hb]. apply Forall_cons_1 in Hb as [H5 _].
  destruct (Z.eqb_spec ret 0) as [-> | N]; simpl.
  - split; [done |]. split; [done |]. intros _.
    change (load _ 0) with b0. change (load _ 1) with b1.
    change (load _ 2) with b2. change (load _ 3) with b3.
    change (load _ 4) with b4. change (load _ 5) with b5.
    destruct (axis_sample_bytes b0 b1 H0 H1) as [Rx Ex].
    destruct (axis_sample_bytes b2 b3 H2 H3) as [Ry Ey].
    destruct (axis_sample_bytes b4 b5 H4 H5) as [Rz Ez].
    split; [| done].
    repeat (apply Forall_cons_2; [done |]). apply Forall_nil_2.
  - split; [done |]. split; [done |]. intros E. by destruct N.
Qed.

Lemma get_raw_xyz_spec_witness :
  let r := adxl314_get_raw_xyz (0, [254; 255; 1; 0; 0; 128]) 7 7 7 in
  Forall (λ v, -32768 ≤ v < 32768) [r.2.1.1; r.2.1.2; r.2.2] ∧
  to_uint16 r.2.1.1 = 254 + 256 * 255 ∧
  to_uint16 r.2.1.2 = 1 + 256 * 0 ∧
  to_uint16 r.2.2 = 0 + 256 * 128.
Proof.
  apply (get_raw_xyz_spec 0 254 255 1 0 0 128 7 7 7).
  - repeat constructor; lia.
  - reflexivity.
Defined.

(** The samples of the witness: -2, 1 and -32768. *)
Example get_raw_xyz_values :
  adxl314_get_raw_xyz (0, [254; 255; 1; 0; 0; 128]) 7 7 7 =
    (0, (-2, 1, -32768)).
Proof. reflexivity. Qed.

(** * Accelerometer register access *)

Lemma to_uint8_testbit z i :
  0 ≤ i < 8 → Z.testbit (to_uint8 z) i = Z.testbit z i.
Proof. intros Hi. unfold to_uint8. apply Z.mod_pow2_bits_low. lia. Qed.

Section BusProperties.
Context {hw : Type}.
Variable spi : hw → list Z → Z → Z * list Z * hw.
Variable i2c_w : hw → list Z → Z → Z → Z * list Z * hw.
Variable i2c_r : hw → list Z → Z → Z → Z * list Z * hw.
Variable multibit : Z.

Local Abbreviation read_device_data := (adxl314_read_device_data hw spi i2c_w i2c_r multibit).
Local Abbreviation write_device_data := (adxl314_write_device_data hw spi i2c_w multibit).
Local Abbreviation control_reg_bit := (adxl314_control_reg_bit hw spi i2c_w i2c_r multibit).
Local Abbreviation reg_write_msk := (adxl314_reg_write_msk hw spi i2c_w i2c_r multibit).

(** X12: [adxl314_control_reg_bit] reads the register once; if that fails
    it returns [-EPIPE] without writing.  Otherwise it writes back one
    byte which, bit for bit, is the byte read except that the bits of
    [modified_bit] are set for [ENABLE_E] and cleared for [DISABLE_E], and
    it returns 0 if the write succeeded and [-EPIPE] if not, whatever code
    the bus reported. *)
Theorem control_reg_bit_spec (dev : adxl314_dev) (h : hw)
    (base_address : Z) (action : bit_action) (modified_bit : Z) :
  let r := read_device_data dev h (ADXL314_ADDR base_address) 1 [0] in
  (r.1.1.1 ≠ 0 →
   control_reg_bit dev h base_address action modified_bit =
     (- EPIPE, r.1.2, r.2)) ∧
  (r.1.1.1 = 0 →
   ∃ v, 0 ≤ v < 256 ∧
     (∀ i, 0 ≤ i < 8 →
        Z.testbit v i =
          if Z.testbit modified_bit i
          then match action with ENABLE_E => true | DISABLE_E => false end
          else Z.testbit (load r.1.1.2 0) i) ∧
     let w := write_device_data r.1.2 r.2 (ADXL314_ADDR base_address) 1 [v] in
     control_reg_bit dev h base_address action modified_bit =
       (if w.1.1 =? 0 then 0 else - EPIPE, w.1.2, w.2)).
Proof.
  intros r. unfold adxl314_control_reg_bit. fold r.
  destruct r as [[[ret rd] dev1] h1]. simpl. split.
  - intros N. by rewrite (proj2 (Z.eqb_neq ret 0) N).
  - intros ->. simpl.
    set (v := match action with
              | DISABLE_E => to_uint8 (Z.land (load rd 0) (Z.lnot modified_bit))
              | ENABLE_E => to_uint8 (Z.lor (load rd 0) modified_bit)
              end).
    exists v. split; [| split].
    + subst v. destruct action; apply to_uint8_range.
    + intros i Hi. subst v. destruct action; rewrite to_uint8_testbit by done.
      * rewrite Z.land_spec, Z.lnot_spec by lia.
        destruct (Z.testbit modified_bit i); simpl;
          [apply andb_false_r | apply andb_true_r].
      * rewrite Z.lor_spec.
        destruct (Z.testbit modified_bit i); simpl;
          [apply orb_true_r | apply orb_false_r].
    + destruct (write_device_data dev1 h1 (ADXL314_ADDR base_address) 1 [v])
        as [[ret dev2] h2]. simpl.
      destruct (Z.eqb_spec ret 0) as [-> | N]; done.
Qed.

(** X13: [adxl314_reg_write_msk] hands a failed read's code on without
    writing.  Otherwise the byte it writes has, bit for bit, every bit of
    [data] set, the bits of [mask] not in [data] cleared, and all other
    bits as read; the result of the call is that of the write, code
    included. *)
Theorem reg_write_msk_spec (dev : adxl314_dev) (h : hw)
    (reg_addr data mask reg_data0 : Z) :
  let r := read_device_data dev h (ADXL314_ADDR reg_addr) 1 [reg_data0] in
  (r.1.1.1 ≠ 0 →
   reg_write_msk dev h reg_addr data mask reg_data0 = (r.1.1.1, r.1.2, r.2)) ∧
  (r.1.1.1 = 0 →
   ∃ v, 0 ≤ v < 256 ∧
     (∀ i, 0 ≤ i < 8 →
        Z.testbit v i =
          Z.testbit data i
          || (Z.testbit (load r.1.1.2 0) i && negb (Z.testbit mask i))) ∧
     reg_write_msk dev h reg_addr data mask reg_data0 =
       write_device_data r.1.2 r.2 (ADXL314_ADDR reg_addr) 1 [v]).
Proof.
  intros r. unfold adxl314_reg_write_msk. fold r.
  destruct r as [[[ret rd] dev1] h1]. simpl. split.
  - intros N. by rewrite (proj2 (Z.eqb_neq ret 0) N).
  - intros ->. simpl.
    exists (to_uint8 (Z.lor (to_uint8 (Z.land (load rd 0) (Z.lnot mask))) data)).
    split; [apply to_uint8_range |]. split; [| done].
    intros i Hi.
    rewrite to_uint8_testbit, Z.lor_spec, to_uint8_testbit by done.
    rewrite Z.land_spec, Z.lnot_spec by lia. apply orb_comm.
Qed.

(** The address a register function puts on the bus always lies in the
    6-bit register space, so with [ADXL314_SPI_WRITE] it forms a command
    byte without the read flag. *)
Lemma addr_range x : 0 ≤ ADXL314_ADDR x < 64.
Proof.
  unfold ADXL314_ADDR. change 0x3F with (Z.ones 6).
  rewrite Z.land_ones by lia. apply Z.mod_pos_bound. lia.
Qed.
End BusProperties.

Lemma control_reg_bit_spec_witness :
  ∃ v, 0 ≤ v < 256 ∧
    (∀ i, 0 ≤ i < 8 →
       Z.testbit v i =
         if Z.testbit 8 i then true
         else Z.testbit
                (load (adxl314_read_device_data Z sim_spi sim_i2c sim_i2c 64
                         sim_dev 5 (ADXL314_ADDR 0x2D) 1 [0]).1.1.2 0) i) ∧
    adxl314_control_reg_bit Z sim_spi sim_i2c sim_i2c 64 sim_dev 5 0x2D ENABLE_E 8 =
      (if (adxl314_write_device_data Z sim_spi sim_i2c 64
             (adxl314_read_device_data Z sim_spi sim_i2c sim_i2c 64
                sim_dev 5 (ADXL314_ADDR 0x2D) 1 [0]).1.2
             (adxl314_read_device_data Z sim_spi sim_i2c sim_i2c 64
                sim_dev 5 (ADXL314_ADDR 0x2D) 1 [0]).2
             (ADXL314_ADDR 0x2D) 1 [v]).1.1 =? 0
       then 0 else - EPIPE,
       (adxl314_write_device_data Z sim_spi sim_i2c 64
          (adxl314_read_device_data Z sim_spi sim_i2c sim_i2c 64
             sim_dev 5 (ADXL314_ADDR 0x2D) 1 [0]).1.2
          (adxl314_read_device_data Z sim_spi sim_i2c sim_i2c 64
             sim_dev 5 (ADXL314_ADDR 0x2D) 1 [0]).2
          (ADXL314_ADDR 0x2D) 1 [v]).1.2,
       (adxl314_write_device_data Z sim_spi sim_i2c 64
          (adxl314_read_device_data Z sim_spi sim_i2c sim_i2c 64
             sim_dev 5 (ADXL314_ADDR 0x2D) 1 [0]).1.2
          (adxl314_read_device_data Z sim_spi sim_i2c sim_i2c 64
             sim_dev 5 (ADXL314_ADDR 0x2D) 1 [0]).2
          (ADXL314_ADDR 0x2D) 1 [v]).2).
Proof.
  apply (proj2 (control_reg_bit_spec sim_spi sim_i2c sim_i2c 64
                  sim_dev 5 0x2D ENABLE_E 8)).
  reflexivity.
Defined.

(** On the one-register device: setting bit 3 of a register holding 0x05
    leaves 0x0D, clearing bit 0 leaves 0x04. *)
Example control_reg_bit_on_sim :
  (adxl314_control_reg_bit Z sim_spi sim_i2c sim_i2c 64
     sim_dev 5 0x2D ENABLE_E 8).2 = 13 ∧
  (adxl314_control_reg_bit Z sim_spi sim_i2c sim_i2c 64
     sim_dev 5 0x2D DISABLE_E 1).2 = 4.
Proof. split; reflexivity. Qed.

Lemma reg_write_msk_spec_witness :
  ∃ v, 0 ≤ v < 256 ∧
    (∀ i, 0 ≤ i < 8 →
       Z.testbit v i =
         Z.testbit 0x80 i
         || (Z.testbit
               (load (adxl314_read_device_data Z sim_spi sim_i2c sim_i2c 64
                        sim_dev 0x5F (ADXL314_ADDR 0x38) 1 [0]).1.1.2 0) i
             && negb (Z.testbit 0xC0 i))) ∧
    adxl314_reg_write_msk Z sim_spi sim_i2c sim_i2c 64 sim_dev 0x5F 0x38 0x80 0xC0 0 =
      adxl314_write_device_data Z sim_spi sim_i2c 64
        (adxl314_read_device_data Z sim_spi sim_i2c sim_i2c 64
           sim_dev 0x5F (ADXL314_ADDR 0x38) 1 [0]).1.2
        (adxl314_read_device_data Z sim_spi sim_i2c sim_i2c 64
           sim_dev 0x5F (ADXL314_ADDR 0x38) 1 [0]).2
        (ADXL314_ADDR 0x38) 1 [v].
Proof.
  apply (proj2 (reg_write_msk_spec sim_spi sim_i2c sim_i2c 64
                  sim_dev 0x5F 0x38 0x80 0xC0 0)).
  reflexivity.
Defined.

(** On the one-register device: writing the field 0x80 under the mask 0xC0
    into a register holding 0x5F leaves 0x9F. *)
Example reg_write_msk_on_sim :
  (adxl314_reg_write_msk Z sim_spi sim_i2c sim_i2c 64
     sim_dev 0x5F 0x38 0x80 0xC0 0).2 = 0x9F.
Proof. reflexivity. Qed.
